(** * Strided sliding-window perplexity (Perplexity_Tutorial.ipynb, cell 12)

    A shallow embedding of the evaluation loop of the notebook and the
    properties of its window plan.

    Integers are Python integers, hence [Z].  The language model is a
    parameter [score] of the development: [score input_ids target_ids]
    stands for [model(input_ids, labels=target_ids).loss].

    The cell is read twice.  In the exact reading the loss and the
    arithmetic on it ([*], [sum], [/], [exp]) are over the real numbers [R]
    and no integer is too large for a tensor operation: this reading carries
    the facts about windows, labels and weights, none of which rests on
    real-number algebra.  In the machine reading the same cell runs over an
    arbitrary tensor arithmetic, of which float32 is an instance, and a
    Python integer is converted to a 64-bit integer before it meets a
    tensor: this reading carries the facts about the value returned and the
    exceptions raised. *)

From Stdlib Require Import ZArith List Bool Lia Permutation Sorted.
From Stdlib Require Import Reals Lra.
From Stdlib Require Import Floats.SpecFloat.
Import ListNotations.

Local Open Scope Z_scope.

(** ** Python built-ins used by the cell *)

Module Py.

(** Exceptions the cell can raise on its own. *)
Inductive exn : Type :=
| ValueError     (* range() arg 3 must not be zero *)
| RuntimeError   (* torch.stack expects a non-empty list *)
| NameError      (* a name read before any assignment *)
| OverflowError. (* Python int too large to convert to a C integer *)

Inductive result (A : Type) : Type :=
| Ok (a : A)
| Raise (e : exn).
Arguments Ok {A} a.
Arguments Raise {A} e.

(** A slice bound [i] on a sequence of length [len], as [slice.indices]
    resolves it for a positive step: negative bounds count from the end,
    and everything is clamped into [0..len]. *)
Definition norm_index (len i : Z) : Z :=
  if i <? 0 then Z.max (i + len) 0 else Z.min i len.

(** [l[lo:hi]] *)
Definition slice {A : Type} (l : list A) (lo hi : Z) : list A :=
  let len := Z.of_nat (length l) in
  let lo' := norm_index len lo in
  let hi' := norm_index len hi in
  firstn (Z.to_nat (hi' - lo')) (skipn (Z.to_nat lo') l).

(** [l[:hi] = v] on a copy of [l] *)
Definition fill_prefix {A : Type} (l : list A) (hi : Z) (v : A) : list A :=
  let k := Z.to_nat (norm_index (Z.of_nat (length l)) hi) in
  repeat v k ++ skipn k l.

(** [len(range(lo, hi, step))]; the step is not zero. *)
Definition range_len (lo hi step : Z) : Z :=
  if 0 <? step then
    if lo <? hi then (hi - lo - 1) / step + 1 else 0
  else
    if hi <? lo then (lo - hi - 1) / (- step) + 1 else 0.

(** [list(range(lo, hi, step))]; the step is not zero. *)
Definition range (lo hi step : Z) : list Z :=
  map (fun i : nat => lo + Z.of_nat i * step)
      (seq 0 (Z.to_nat (range_len lo hi step))).

End Py.

Import Py.

(** [torch.stack(xs).sum()] *)
Definition tensor_sum (xs : list R) : R := fold_right Rplus 0%R xs.

(** The value written over context positions of the labels. *)
Definition ignore_index : Z := -100.

(** The labels [target] are a copy of [input] that keeps its last [trg]
    entries and holds the ignore value at every position before them. *)
Definition scored_tail (input target : list Z) (trg : Z) : Prop :=
  let len := length input in
  let k := (len - Z.to_nat trg)%nat in
  length target = len /\
  (forall i : nat, (i < k)%nat -> nth i target 0 = ignore_index) /\
  (forall i : nat, (k <= i < len)%nat -> nth i target 0 = nth i input 0).



(** Sum of a list of integers. *)
Definition sumZ (xs : list Z) : Z := fold_right Z.add 0 xs.

(** ** The loop of cell 12 *)

(** What one iteration of the loop binds: the loop variable, the value of
    [prev_end_loc] on entry, and the locals computed from them. *)
Record window : Type := mk_window {
  w_begin_loc : Z;
  w_prev_end_loc : Z;
  w_end_loc : Z;
  w_trg_len : Z;
  w_input_ids : list Z;
  w_target_ids : list Z
}.

(** The variables the loop updates.  [end_loc] is unbound until the first
    iteration has run.  [log] is a ghost variable: it records the iterations
    executed, in order, and nothing reads it. *)
Record state : Type := mk_state {
  nlls : list R;
  prev_end_loc : Z;
  end_loc : option Z;
  log : list window
}.

Section Cell12.

(** [model(input_ids, labels=target_ids).loss]; a call of the model that
    raises is not modelled. *)
Variable score : list Z -> list Z -> R.
(** [encodings.input_ids], a single row. *)
Variable tokens : list Z.
Variables max_length stride : Z.

Definition seq_len : Z := Z.of_nat (length tokens).

(** The locals of the iteration that starts at [begin_loc] when
    [prev_end_loc] holds [prev]. *)
Definition locals (begin_loc prev : Z) : window :=
  let end_loc := Z.min (begin_loc + max_length) seq_len in
  let trg_len := end_loc - prev in
  let input_ids := slice tokens begin_loc end_loc in
  let target_ids := fill_prefix input_ids (- trg_len) ignore_index in
  mk_window begin_loc prev end_loc trg_len input_ids target_ids.

(** [outputs.loss * trg_len] *)
Definition neg_log_likelihood (w : window) : R :=
  (score (w_input_ids w) (w_target_ids w) * IZR (w_trg_len w))%R.

Definition init_state : state := mk_state [] 0 None [].

(** One pass through the body of the [for]; the boolean tells whether the
    [break] was taken. *)
Definition loop_body (st : state) (begin_loc : Z) : state * bool :=
  let w := locals begin_loc (prev_end_loc st) in
  (mk_state (nlls st ++ [neg_log_likelihood w])
            (w_end_loc w)
            (Some (w_end_loc w))
            (log st ++ [w]),
   w_end_loc w =? seq_len).

(** The [for] over the values of the range, left by [break] or by
    exhaustion; the boolean tells which. *)
Fixpoint for_loop (begins : list Z) (st : state) : state * bool :=
  match begins with
  | [] => (st, false)
  | begin_loc :: rest =>
      let (st', broke) := loop_body st begin_loc in
      if broke then (st', true) else for_loop rest st'
  end.

Definition run_loop : state * bool :=
  for_loop (range 0 seq_len stride) init_state.

(** The whole cell in the exact reading: the value bound to [ppl], or the
    exception raised.  [machine_perplexity] below is the cell with the
    integer conversions and an arbitrary tensor arithmetic. *)
Definition estimate_perplexity : result R :=
  if stride =? 0 then Raise ValueError
  else
    let st := fst run_loop in
    match nlls st with
    | [] => Raise RuntimeError
    | _ :: _ =>
        match end_loc st with
        | None => Raise NameError
        | Some e => Ok (exp (tensor_sum (nlls st) / IZR e))
        end
    end.

(** ** The window plan, computed ahead of any scoring

    The two-phase reading of the algorithm: first the list of windows,
    from the integers alone, then the reduction of the scores. *)

Fixpoint plan_from (begins : list Z) (prev : Z) : list window :=
  match begins with
  | [] => []
  | begin_loc :: rest =>
      let w := locals begin_loc prev in
      if w_end_loc w =? seq_len then [w]
      else w :: plan_from rest (w_end_loc w)
  end.

Definition window_plan : list window :=
  plan_from (range 0 seq_len stride) 0.

(** Reduction of an already computed list of windows [ws]; [total] is the
    divisor. *)
Definition reduce (ws : list window) (total : Z) : R :=
  exp (tensor_sum (map neg_log_likelihood ws) / IZR total).

(** Plan first, reduce afterwards; the divisor is the end of the last planned
    window. *)
Definition two_phase : result R :=
  if stride =? 0 then Raise ValueError
  else
    match window_plan with
    | [] => Raise RuntimeError
    | w :: ws => Ok (reduce (w :: ws) (w_end_loc (last ws w)))
    end.




(** ** Shapes of window lists *)

(** [tiling j p ws]: [ws] are the windows that start at [j * stride],
    [(j+1) * stride], ... with [p] the end of the window before them; every
    window but the last is [max_length] long and ends before the end of the
    sequence, the last one reaches it. *)
Inductive tiling : nat -> Z -> list window -> Prop :=
| tiling_stop (j : nat) (p : Z) :
    seq_len <= Z.of_nat j * stride + max_length ->
    tiling j p [locals (Z.of_nat j * stride) p]
| tiling_step (j : nat) (p : Z) (ws : list window) :
    Z.of_nat j * stride + max_length < seq_len ->
    tiling (S j) (Z.of_nat j * stride + max_length) ws ->
    tiling j p (locals (Z.of_nat j * stride) p :: ws).

(** Each window is entered with [prev_end_loc] equal to the end of the
    window before it. *)
Fixpoint linked (prev : Z) (ws : list window) : Prop :=
  match ws with
  | [] => True
  | w :: ws' => w_prev_end_loc w = prev /\ linked (w_end_loc w) ws'
  end.

(** A window with a non-empty scored tail that lies inside it. *)
Record sound_window (w : window) : Prop := {
  sw_begin : 0 <= w_begin_loc w <= w_prev_end_loc w;
  sw_prev : w_prev_end_loc w < w_end_loc w;
  sw_end : w_end_loc w = Z.min (w_begin_loc w + max_length) seq_len;
  sw_trg : w_trg_len w = w_end_loc w - w_prev_end_loc w;
  sw_input :
    w_input_ids w =
    firstn (Z.to_nat (w_end_loc w - w_begin_loc w))
           (skipn (Z.to_nat (w_begin_loc w)) tokens);
  sw_length : Z.of_nat (length (w_input_ids w)) = w_end_loc w - w_begin_loc w;
  sw_target :
    w_target_ids w =
    repeat ignore_index (length (w_input_ids w) - Z.to_nat (w_trg_len w)) ++
    skipn (length (w_input_ids w) - Z.to_nat (w_trg_len w)) (w_input_ids w)
}.

(** The preconditions of the contract. *)
Definition pre : Prop :=
  1 <= seq_len /\ 1 <= max_length /\ 1 <= stride <= max_length.

End Cell12.

(** ** Windows outside the contract

    What the loop goes through for any window length, as long as the stride
    is positive: the loop may also run out of begin positions before a window
    reaches the end of the sequence. *)

Section Walks.

Variable tokens : list Z.
Variables max_length stride : Z.

Inductive walk : nat -> Z -> list window -> Prop :=
| walk_done (j : nat) (p : Z) :
    seq_len tokens <= Z.of_nat j * stride ->
    walk j p []
| walk_stop (j : nat) (p : Z) :
    Z.of_nat j * stride < seq_len tokens ->
    seq_len tokens <= Z.of_nat j * stride + max_length ->
    walk j p [locals tokens max_length (Z.of_nat j * stride) p]
| walk_step (j : nat) (p : Z) (ws : list window) :
    Z.of_nat j * stride < seq_len tokens ->
    Z.of_nat j * stride + max_length < seq_len tokens ->
    walk (S j) (Z.of_nat j * stride + max_length) ws ->
    walk j p (locals tokens max_length (Z.of_nat j * stride) p :: ws).

End Walks.

(** The labels of a window in front of its last [trg_len] positions, and
    those last [trg_len] labels. *)
Definition context_labels (w : window) : list Z :=
  firstn (length (w_target_ids w) - Z.to_nat (w_trg_len w)) (w_target_ids w).

Definition scored_labels (w : window) : list Z :=
  skipn (length (w_target_ids w) - Z.to_nat (w_trg_len w)) (w_target_ids w).

(** ** The cell in the arithmetic of the machine *)

(** A Python integer that meets a tensor is first converted to a C 64-bit
    integer; the conversion raises [OverflowError] when it does not fit. *)
Definition fits_int64 (z : Z) : bool := (- 2 ^ 63 <=? z) && (z <? 2 ^ 63).

(** The operations the cell applies to the loss: [x * n] and [x / n] for a
    Python integer [n] that fits, [torch.stack(xs).sum()] and [torch.exp]. *)
Record tensor_ops : Type := mk_tensor_ops {
  scalar : Type;
  t_mul : scalar -> Z -> scalar;
  t_sum : list scalar -> scalar;
  t_div : scalar -> Z -> scalar;
  t_exp : scalar -> scalar
}.

(** Exact arithmetic. *)
Definition real_ops : tensor_ops :=
  mk_tensor_ops R (fun x n => (x * IZR n)%R) tensor_sum
                (fun x n => (x / IZR n)%R) exp.

(** IEEE binary32, rounding to nearest even.  The integer operand is
    converted to float32 before the operation; the elements of a sum are
    accumulated in index order. *)
Module F32.

Definition prec : Z := 24.
Definition emax : Z := 128.

Definition of_int (z : Z) : spec_float := binary_normalize prec emax z 0 false.

(** The float32 nearest to [m * 2^e]. *)
Definition of_bits (m e : Z) : spec_float := binary_normalize prec emax m e false.

Definition mul (x : spec_float) (n : Z) : spec_float :=
  SFmul prec emax x (of_int n).

Definition div (x : spec_float) (n : Z) : spec_float :=
  SFdiv prec emax x (of_int n).

Definition sum (xs : list spec_float) : spec_float :=
  fold_left (SFadd prec emax) xs (S754_zero false).

End F32.

(** float32 arithmetic around an exponential [texp] on float32, which stands
    for [torch.exp]. *)
Definition float32_ops (texp : spec_float -> spec_float) : tensor_ops :=
  mk_tensor_ops spec_float F32.mul F32.sum F32.div texp.

Section Machine.

Variable ops : tensor_ops.
(** [model(input_ids, labels=target_ids).loss] *)
Variable score : list Z -> list Z -> scalar ops.
Variable tokens : list Z.
Variables max_length stride : Z.

(** The variables the loop updates, as in [state]. *)
Record mstate : Type := mk_mstate {
  m_nlls : list (scalar ops);
  m_prev_end_loc : Z;
  m_end_loc : option Z;
  m_log : list window
}.

(** [outputs.loss * trg_len], for a [trg_len] that fits. *)
Definition m_neg_log_likelihood (w : window) : scalar ops :=
  t_mul ops (score (w_input_ids w) (w_target_ids w)) (w_trg_len w).

Definition m_init_state : mstate := mk_mstate [] 0 None [].

(** One pass through the body of the [for]: the locals are those of the
    exact reading, and the multiplication raises when [trg_len] does not
    fit. *)
Definition m_loop_body (st : mstate) (begin_loc : Z) : result (mstate * bool) :=
  let w := locals tokens max_length begin_loc (m_prev_end_loc st) in
  if fits_int64 (w_trg_len w) then
    Ok (mk_mstate (m_nlls st ++ [m_neg_log_likelihood w])
                  (w_end_loc w)
                  (Some (w_end_loc w))
                  (m_log st ++ [w]),
        w_end_loc w =? seq_len tokens)
  else Raise OverflowError.

Fixpoint m_for_loop (begins : list Z) (st : mstate) : result (mstate * bool) :=
  match begins with
  | [] => Ok (st, false)
  | begin_loc :: rest =>
      match m_loop_body st begin_loc with
      | Raise e => Raise e
      | Ok (st', broke) => if broke then Ok (st', true) else m_for_loop rest st'
      end
  end.

Definition machine_run : result (mstate * bool) :=
  m_for_loop (range 0 (seq_len tokens) stride) m_init_state.

(** The whole cell: the value bound to [ppl], or the exception raised. *)
Definition machine_perplexity : result (scalar ops) :=
  if stride =? 0 then Raise ValueError
  else
    match machine_run with
    | Raise e => Raise e
    | Ok (st, _) =>
        match m_nlls st with
        | [] => Raise RuntimeError
        | _ :: _ =>
            match m_end_loc st with
            | None => Raise NameError
            | Some e =>
                if fits_int64 e
                then Ok (t_exp ops (t_div ops (t_sum ops (m_nlls st)) e))
                else Raise OverflowError
            end
        end
    end.

(** Reduction of an already computed list of windows, divided by [total]. *)
Definition machine_reduce (ws : list window) (total : Z) : scalar ops :=
  t_exp ops (t_div ops (t_sum ops (map m_neg_log_likelihood ws)) total).

(** Plan first, reduce afterwards. *)
Definition machine_two_phase : result (scalar ops) :=
  if stride =? 0 then Raise ValueError
  else
    let plan := window_plan tokens max_length stride in
    if forallb (fun w => fits_int64 (w_trg_len w)) plan then
      match plan with
      | [] => Raise RuntimeError
      | w :: ws =>
          let e := w_end_loc (last ws w) in
          if fits_int64 e then Ok (machine_reduce (w :: ws) e)
          else Raise OverflowError
      end
    else Raise OverflowError.

End Machine.

Arguments mk_mstate {ops} _ _ _ _.
Arguments m_nlls {ops} _.
Arguments m_prev_end_loc {ops} _.
Arguments m_end_loc {ops} _.
Arguments m_log {ops} _.

(** ** A worked scenario

    Ten tokens, windows of five, a stride of three, and a model whose loss is
    the number of labels it is asked to score. *)

Definition ten_tokens : list Z := [1; 2; 3; 4; 5; 6; 7; 8; 9; 10].

Definition count_score (input_ids target_ids : list Z) : R :=
  IZR (Z.of_nat (length (filter (fun t => negb (t =? ignore_index)) target_ids))).

(** A float32 loss that three times itself, divided by three, does not give
    back: 11388698 * 2^-20, about 10.861. *)
Definition uneven_loss : spec_float := S754_finite false 11388698 (-20).

Definition uneven_score (input_ids target_ids : list Z) : spec_float :=
  uneven_loss.

(** A float32 model whose loss depends on the number of labels it is asked
    to score: 16 for five labels, 2^-20 for three, 1.5 * 2^-20 otherwise. *)
Definition steep_score (input_ids target_ids : list Z) : spec_float :=
  let k := length (filter (fun t => negb (t =? ignore_index)) target_ids) in
  if (k =? 5)%nat then F32.of_bits 16 0
  else if (k =? 3)%nat then F32.of_bits 1 (-20)
  else F32.of_bits 3 (-21).

(** ** Slices and ranges *)

Section PyFacts.

Context {A : Type}.
Implicit Types (l : list A) (v : A).

Lemma norm_index_inside (len i : Z) :
  0 <= i <= len -> norm_index len i = i.
Proof.
  intros H. unfold norm_index.
  destruct (Z.ltb_spec i 0); lia.
Qed.

Lemma norm_index_back (len t : Z) :
  0 <= len -> 1 <= t -> norm_index len (- t) = Z.max (len - t) 0.
Proof.
  intros Hlen Ht. unfold norm_index.
  destruct (Z.ltb_spec (- t) 0); lia.
Qed.

Lemma slice_inside l (lo hi : Z) :
  0 <= lo <= hi -> hi <= Z.of_nat (length l) ->
  slice l lo hi = firstn (Z.to_nat (hi - lo)) (skipn (Z.to_nat lo) l).
Proof.
  intros H1 H2. unfold slice.
  rewrite !norm_index_inside by lia. reflexivity.
Qed.

Lemma slice_length l (lo hi : Z) :
  0 <= lo <= hi -> hi <= Z.of_nat (length l) ->
  Z.of_nat (length (slice l lo hi)) = hi - lo.
Proof.
  intros H1 H2. rewrite slice_inside by assumption.
  rewrite length_firstn, length_skipn. lia.
Qed.

Lemma slice_whole l (hi : Z) :
  hi = Z.of_nat (length l) -> slice l 0 hi = l.
Proof.
  intros ->. rewrite slice_inside by lia.
  cbn [Z.to_nat skipn]. rewrite Z.sub_0_r, Nat2Z.id. apply firstn_all.
Qed.

Lemma fill_prefix_back l (t : Z) v :
  1 <= t ->
  fill_prefix l (- t) v =
  repeat v (length l - Z.to_nat t) ++ skipn (length l - Z.to_nat t) l.
Proof.
  intros Ht. unfold fill_prefix.
  rewrite norm_index_back by lia.
  replace (Z.to_nat (Z.max (Z.of_nat (length l) - t) 0))
    with (length l - Z.to_nat t)%nat by lia.
  reflexivity.
Qed.

(** Nothing is overwritten when the scored tail covers the whole list. *)
Lemma fill_prefix_none l (t : Z) v :
  Z.of_nat (length l) <= t -> 1 <= t -> fill_prefix l (- t) v = l.
Proof.
  intros Hl Ht. rewrite fill_prefix_back by assumption.
  replace (length l - Z.to_nat t)%nat with O by lia. reflexivity.
Qed.

Lemma masked_length l (k : nat) v :
  (k <= length l)%nat -> length (repeat v k ++ skipn k l) = length l.
Proof.
  intros Hk. rewrite length_app, repeat_length, length_skipn. lia.
Qed.

Lemma masked_nth_context l (k i : nat) v d :
  (i < k)%nat -> nth i (repeat v k ++ skipn k l) d = v.
Proof.
  intros Hi. rewrite app_nth1 by (rewrite repeat_length; exact Hi).
  apply nth_repeat_lt. exact Hi.
Qed.

Lemma masked_nth_scored l (k i : nat) v d :
  (k <= i)%nat -> nth i (repeat v k ++ skipn k l) d = nth i l d.
Proof.
  intros Hi. rewrite app_nth2 by (rewrite repeat_length; exact Hi).
  rewrite repeat_length, nth_skipn. f_equal. lia.
Qed.

End PyFacts.

Lemma range_forward (hi step : Z) :
  1 <= step -> 1 <= hi ->
  range 0 hi step =
  map (fun i : nat => Z.of_nat i * step)
      (seq 0 (S (Z.to_nat ((hi - 1) / step)))).
Proof.
  intros Hs Hh. unfold range, range_len.
  destruct (Z.ltb_spec 0 step); [|lia].
  destruct (Z.ltb_spec 0 hi); [|lia].
  rewrite Z.sub_0_r.
  assert (0 <= (hi - 1) / step) by (apply Z.div_pos; lia).
  replace (Z.to_nat ((hi - 1) / step + 1)) with (S (Z.to_nat ((hi - 1) / step))) by lia.
  reflexivity.
Qed.

Lemma range_backward (hi step : Z) :
  step < 0 -> 0 <= hi -> range 0 hi step = [].
Proof.
  intros Hs Hh. unfold range, range_len.
  destruct (Z.ltb_spec 0 step); [lia|].
  destruct (Z.ltb_spec hi 0); [lia|]. reflexivity.
Qed.

Lemma range_zero_step (hi : Z) : 0 <= hi -> range 0 hi 0 = [].
Proof.
  intros Hh. unfold range, range_len. cbn [Z.ltb Z.compare].
  destruct (Z.ltb_spec hi 0); [lia|]. reflexivity.
Qed.

Lemma range_nothing (step : Z) : range 0 0 step = [].
Proof.
  unfold range, range_len.
  destruct (Z.ltb_spec 0 step); cbn; reflexivity.
Qed.

(** ** The loop and the window plan *)

Lemma last_cons {A : Type} (a d : A) (l : list A) :
  last (a :: l) d = last l a.
Proof.
  revert a d. induction l as [|b l IH]; intros a d; [reflexivity|].
  change (last (a :: b :: l) d) with (last (b :: l) d).
  rewrite (IH b d), (IH b a). reflexivity.
Qed.

Lemma last_map {A B : Type} (f : A -> B) (l : list A) (d : A) :
  last (map f l) (f d) = f (last l d).
Proof.
  revert d. induction l as [|a l IH]; intros d; [reflexivity|].
  cbn [map]. rewrite !last_cons. apply IH.
Qed.

Section LoopFacts.

Variable score : list Z -> list Z -> R.
Variable tokens : list Z.
Variables max_length stride : Z.

(** Whatever the arguments, the loop leaves behind exactly the windows of
    the plan, their contributions, and the end of the last one. *)
Lemma for_loop_plan (begins : list Z) (st : state) :
  let ws := plan_from tokens max_length begins (prev_end_loc st) in
  for_loop score tokens max_length begins st =
  (mk_state (nlls st ++ map (neg_log_likelihood score) ws)
            (last (map w_end_loc ws) (prev_end_loc st))
            (last (map (fun w => Some (w_end_loc w)) ws) (end_loc st))
            (log st ++ ws),
   existsb (fun w => w_end_loc w =? (seq_len tokens)) ws).
Proof.
  revert st. induction begins as [|b rest IH]; intros st; cbn zeta.
  - cbn. rewrite !app_nil_r. destruct st; reflexivity.
  - cbn [for_loop plan_from]. unfold loop_body.
    destruct (Z.eqb _ _) eqn:E.
    + cbn [map last existsb]. rewrite E. reflexivity.
    + rewrite IH. cbn [nlls prev_end_loc end_loc log map existsb].
      rewrite E, !last_cons, <- !app_assoc. reflexivity.
Qed.

Lemma plan_from_cons (b : Z) (rest : list Z) (p : Z) :
  plan_from tokens max_length (b :: rest) p =
  if Z.min (b + max_length) (seq_len tokens) =? seq_len tokens
  then [locals tokens max_length b p]
  else locals tokens max_length b p ::
       plan_from tokens max_length rest (Z.min (b + max_length) (seq_len tokens)).
Proof. reflexivity. Qed.

Lemma plan_from_linked (begins : list Z) (p : Z) :
  linked p (plan_from tokens max_length begins p).
Proof.
  revert p. induction begins as [|b rest IH]; intros p; cbn; [exact I|].
  destruct (_ =? _); cbn; auto.
Qed.

Hypothesis stride_pos : 1 <= stride.
Hypothesis stride_le : stride <= max_length.

(** Over the begin positions [j * stride, ..., (j+m-1) * stride], the last
    of which is a window that reaches the end of the sequence, the plan is
    a tiling. *)
Lemma plan_from_tiling (m j : nat) (p : Z) :
  (seq_len tokens) <= Z.of_nat (j + m) * stride + max_length ->
  tiling tokens max_length stride j p
    (plan_from tokens max_length (map (fun i : nat => Z.of_nat i * stride) (seq j (S m))) p).
Proof.
  revert j p. induction m as [|m IH]; intros j p Hlast;
    change (seq j (S ?k)) with (j :: seq (S j) k);
    cbn [map]; rewrite plan_from_cons;
    destruct (Z.eqb_spec (Z.min (Z.of_nat j * stride + max_length) (seq_len tokens))
                         (seq_len tokens)) as [E|E];
    try (apply tiling_stop; lia).
  (* what is left is a window that stops short, with windows after it *)
  apply tiling_step; [lia|].
    replace (Z.min (Z.of_nat j * stride + max_length) (seq_len tokens))
      with (Z.of_nat j * stride + max_length) by lia.
    apply (IH (S j)). rewrite Nat.add_succ_comm. exact Hlast.
Qed.

Lemma locals_sound (b p : Z) :
  0 <= b <= p -> p < (seq_len tokens) -> p < b + max_length ->
  sound_window tokens max_length (locals tokens max_length b p).
Proof.
  intros Hb Hp Hm.
  assert (Hlen : Z.of_nat (length (slice tokens b (Z.min (b + max_length) (seq_len tokens))))
                 = Z.min (b + max_length) (seq_len tokens) - b)
    by (apply slice_length; unfold seq_len in *; lia).
  constructor; cbn; try lia.
  - apply slice_inside; unfold seq_len in *; lia.
  - apply fill_prefix_back. lia.
Qed.

Lemma tiling_sound (j : nat) (p : Z) (ws : list window) :
  tiling tokens max_length stride j p ws ->
  Z.of_nat j * stride <= p -> p < (seq_len tokens) -> p < Z.of_nat j * stride + max_length ->
  Forall (sound_window tokens max_length) ws.
Proof.
  induction 1 as [j p Hstop|j p ws Hgo Hrest IH]; intros H1 H2 H3.
  - constructor; [|constructor]. apply locals_sound; lia.
  - constructor; [apply locals_sound; lia|].
    apply IH; lia.
Qed.

(** *** What a tiling looks like *)



Lemma tiling_sum (j : nat) (p : Z) (ws : list window) :
  tiling tokens max_length stride j p ws ->
  sumZ (map w_trg_len ws) = seq_len tokens - p.
Proof.
  induction 1 as [j p Hstop|j p ws Hgo Hrest IH]; cbn [map sumZ fold_right].
  - cbn. lia.
  - fold (sumZ (map w_trg_len ws)). rewrite IH. cbn. lia.
Qed.




(** Past the first window, [prev_end_loc] is always [max_length - stride]
    beyond [begin_loc]. *)
Lemma tiling_overlap (j : nat) (p : Z) (ws : list window) :
  tiling tokens max_length stride j p ws ->
  p - Z.of_nat j * stride = max_length - stride ->
  Forall (fun w => w_prev_end_loc w - w_begin_loc w = max_length - stride) ws.
Proof.
  induction 1 as [j p Hstop|j p ws Hgo Hrest IH]; intros Hp.
  - constructor; [exact Hp|constructor].
  - constructor; [exact Hp|]. apply IH. lia.
Qed.

(** The plan of the cell is a tiling from position [0]. *)
Lemma window_plan_tiling :
  1 <= seq_len tokens ->
  tiling tokens max_length stride 0 0 (window_plan tokens max_length stride).
Proof.
  intros Hn. unfold window_plan.
  rewrite range_forward by assumption.
  apply plan_from_tiling.
  pose proof (Z.div_mod (seq_len tokens - 1) stride ltac:(lia)) as Hdm.
  pose proof (Z.mod_pos_bound (seq_len tokens - 1) stride ltac:(lia)) as Hmod.
  assert (0 <= (seq_len tokens - 1) / stride) by (apply Z.div_pos; lia).
  rewrite Nat.add_0_l, Z2Nat.id by assumption. lia.
Qed.

Lemma window_plan_sound :
  1 <= seq_len tokens ->
  Forall (sound_window tokens max_length) (window_plan tokens max_length stride).
Proof.
  intros Hn. apply (tiling_sound 0 0); [apply window_plan_tiling| | |]; lia.
Qed.

End LoopFacts.

Section CellFacts.

Variable score : list Z -> list Z -> R.
Variable tokens : list Z.
Variables max_length stride : Z.

Lemma run_loop_plan :
  let ws := window_plan tokens max_length stride in
  run_loop score tokens max_length stride =
  (mk_state (map (neg_log_likelihood score) ws)
            (last (map w_end_loc ws) 0)
            (last (map (fun w => Some (w_end_loc w)) ws) None)
            ws,
   existsb (fun w => w_end_loc w =? seq_len tokens) ws).
Proof.
  unfold run_loop. rewrite for_loop_plan. reflexivity.
Qed.

Lemma run_loop_log :
  log (fst (run_loop score tokens max_length stride)) =
  window_plan tokens max_length stride.
Proof. rewrite run_loop_plan. reflexivity. Qed.

Lemma estimate_perplexity_plan :
  estimate_perplexity score tokens max_length stride =
  two_phase score tokens max_length stride.
Proof.
  unfold estimate_perplexity, two_phase.
  destruct (stride =? 0); [reflexivity|].
  rewrite run_loop_plan. cbn [fst nlls end_loc].
  destruct (window_plan tokens max_length stride) as [|w ws]; [reflexivity|].
  cbn [map]. rewrite last_cons.
  rewrite (last_map (fun w => Some (w_end_loc w))). reflexivity.
Qed.


End CellFacts.

Section WindowFacts.

Variable tokens : list Z.
Variables max_length stride : Z.

Lemma sound_scored_tail (w : window) :
  sound_window tokens max_length w ->
  scored_tail (w_input_ids w) (w_target_ids w) (w_trg_len w).
Proof.
  intros []. unfold scored_tail. rewrite sw_target0.
  split; [apply masked_length; lia|]. split; intros i Hi.
  - apply masked_nth_context. exact Hi.
  - apply masked_nth_scored. lia.
Qed.

Lemma sound_trg_len (w : window) :
  sound_window tokens max_length w ->
  1 <= w_trg_len w <= Z.of_nat (length (w_input_ids w)).
Proof. intros []. lia. Qed.

(** The values [prev_end_loc] goes through: the initial one, then the end
    of each window. *)
Lemma linked_increasing (ws : list window) (p : Z) :
  linked p ws ->
  Forall (fun w => w_prev_end_loc w < w_end_loc w) ws ->
  StronglySorted Z.lt (p :: map w_end_loc ws).
Proof.
  revert p. induction ws as [|w ws IH]; intros p L F; cbn [map].
  - repeat constructor.
  - destruct L as [Lp L]. inversion F as [|? ? Fw Fws]; subst.
    specialize (IH _ L Fws).
    constructor; [exact IH|].
    constructor; [exact Fw|].
    apply StronglySorted_inv in IH. destruct IH as [_ IH].
    revert IH. apply Forall_impl. intros e He. lia.
Qed.

Lemma locals_whole :
  1 <= seq_len tokens <= max_length ->
  locals tokens max_length 0 0 =
  mk_window 0 0 (seq_len tokens) (seq_len tokens)
            tokens tokens.
Proof.
  intros Hle. unfold locals. cbn [Z.add].
  replace (Z.min max_length (seq_len tokens)) with (seq_len tokens) by lia.
  rewrite Z.sub_0_r, slice_whole by reflexivity.
  rewrite fill_prefix_none by (unfold seq_len in *; lia). reflexivity.
Qed.

End WindowFacts.

(** ** Disjoint chunks and sums *)




Lemma tensor_sum_perm (xs ys : list R) :
  Permutation xs ys -> tensor_sum xs = tensor_sum ys.
Proof.
  unfold tensor_sum.
  induction 1 as [|x xs ys _ IH|x y xs|xs ys zs _ IH1 _ IH2];
    cbn [fold_right].
  - reflexivity.
  - rewrite IH. reflexivity.
  - ring.
  - congruence.
Qed.

Section ChunkFacts.

Variable score : list Z -> list Z -> R.
Variable tokens : list Z.
Variable max_length : Z.
Hypothesis max_length_pos : 1 <= max_length.



End ChunkFacts.

Section PlanShape.

Variable tokens : list Z.
Variables max_length stride : Z.

(** No window is planned when the range is empty. *)
Lemma window_plan_empty :
  stride <= 0 \/ tokens = [] -> window_plan tokens max_length stride = [].
Proof.
  intros H. unfold window_plan.
  assert (Hn : 0 <= seq_len tokens) by (unfold seq_len; lia).
  destruct H as [H| ->]; [|rewrite range_nothing; reflexivity].
  destruct (Z.eq_dec stride 0) as [->|Hs].
  - rewrite range_zero_step by exact Hn. reflexivity.
  - rewrite range_backward by lia. reflexivity.
Qed.

(** A positive stride over a non-empty sequence plans at least one. *)
Lemma window_plan_first :
  1 <= stride -> tokens <> [] ->
  exists w ws, window_plan tokens max_length stride = w :: ws.
Proof.
  intros Hs Ht.
  assert (Hn : 1 <= seq_len tokens)
    by (unfold seq_len; destruct tokens; [congruence|cbn [length]; lia]).
  unfold window_plan. rewrite range_forward by assumption.
  cbn [seq map]. rewrite plan_from_cons.
  destruct (_ =? _); eauto.
Qed.

End PlanShape.

(** ** Properties of the cell *)

(** C1 (coverage): under the preconditions the values of [trg_len] over the
    iterations the loop executes add up to [len(tokens)]. *)
Theorem coverage_invariant
    (score : list Z -> list Z -> R) (tokens : list Z) (max_length stride : Z) :
  pre tokens max_length stride ->
  sumZ (map w_trg_len (log (fst (run_loop score tokens max_length stride))))
  = Z.of_nat (length tokens).
Proof.
  intros (Hn & Hm & Hs1 & Hs2).
  rewrite run_loop_log.
  rewrite (tiling_sum tokens max_length stride 0 0)
    by (apply window_plan_tiling; assumption).
  unfold seq_len. lia.
Qed.

Lemma coverage_invariant_witness :
  sumZ (map w_trg_len (log (fst (run_loop count_score ten_tokens 5 3)))) = 10.
Proof.
  apply (coverage_invariant count_score ten_tokens 5 3).
  unfold pre, seq_len. cbn. lia.
Defined.



(** C3 (scenario): on tokens 1..10 with [max_length = 5] and [stride = 3]
    the loop executes the windows (0,5), (3,8), (6,10) with [trg_len] 5, 3, 2,
    in this order, and leaves through [break]: the value 9 of the range is
    never reached. *)
Theorem scenario_windows (score : list Z -> list Z -> R) :
  range 0 10 3 = [0; 3; 6; 9] /\
  map (fun w => (w_begin_loc w, w_end_loc w, w_trg_len w))
      (log (fst (run_loop score [1; 2; 3; 4; 5; 6; 7; 8; 9; 10] 5 3)))
  = [(0, 5, 5); (3, 8, 3); (6, 10, 2)] /\
  snd (run_loop score [1; 2; 3; 4; 5; 6; 7; 8; 9; 10] 5 3) = true.
Proof.
  rewrite run_loop_plan. cbn [fst snd log].
  repeat split; vm_compute; reflexivity.
Qed.

(** C4 (labels): under the preconditions the labels built for every window
    the loop executes are a copy of the window whose last [trg_len] positions
    keep the token ids and whose other positions hold the ignore value; in the
    scenario the window (3,8) has labels [-100, -100, 6, 7, 8]. *)
Theorem targets_mask :
  (forall (score : list Z -> list Z -> R) (tokens : list Z)
          (max_length stride : Z),
      pre tokens max_length stride ->
      Forall (fun w =>
                w_input_ids w = slice tokens (w_begin_loc w) (w_end_loc w) /\
                1 <= w_trg_len w <= Z.of_nat (length (w_input_ids w)) /\
                scored_tail (w_input_ids w) (w_target_ids w) (w_trg_len w))
             (log (fst (run_loop score tokens max_length stride)))) /\
  (forall score : list Z -> list Z -> R,
      map (fun w => (w_begin_loc w, w_end_loc w, w_trg_len w,
                     w_input_ids w, w_target_ids w))
          (log (fst (run_loop score [1; 2; 3; 4; 5; 6; 7; 8; 9; 10] 5 3)))
      = [(0, 5, 5, [1; 2; 3; 4; 5], [1; 2; 3; 4; 5]);
         (3, 8, 3, [4; 5; 6; 7; 8], [-100; -100; 6; 7; 8]);
         (6, 10, 2, [7; 8; 9; 10], [-100; -100; 9; 10])]).
Proof.
  split.
  - intros score tokens max_length stride (Hn & Hm & Hs1 & Hs2).
    rewrite run_loop_log.
    pose proof (window_plan_sound tokens max_length stride Hs1 Hs2 Hn) as S.
    revert S. apply Forall_impl. intros w Hw.
    split; [|split].
    + destruct Hw. rewrite sw_input0. symmetry.
      apply slice_inside; unfold seq_len in *; lia.
    + exact (sound_trg_len _ _ _ Hw).
    + exact (sound_scored_tail _ _ _ Hw).
  - intros score. rewrite run_loop_log. vm_compute. reflexivity.
Qed.

Lemma targets_mask_witness :
  Forall (fun w =>
            w_input_ids w = slice ten_tokens (w_begin_loc w) (w_end_loc w) /\
            1 <= w_trg_len w <= Z.of_nat (length (w_input_ids w)) /\
            scored_tail (w_input_ids w) (w_target_ids w) (w_trg_len w))
         (log (fst (run_loop count_score ten_tokens 5 3))).
Proof.
  apply (proj1 targets_mask count_score ten_tokens 5 3).
  unfold pre, seq_len. cbn. lia.
Defined.

(** C10 (progress): under the preconditions every iteration has
    [1 <= trg_len <= end_loc - begin_loc], the window is
    [end_loc - begin_loc] long, [prev_end_loc] grows strictly from one
    iteration to the next, and the slice assignment overwrites exactly the
    first [len - trg_len] labels. *)
Theorem trg_len_positive
    (score : list Z -> list Z -> R) (tokens : list Z) (max_length stride : Z) :
  pre tokens max_length stride ->
  let ws := log (fst (run_loop score tokens max_length stride)) in
  Forall (fun w =>
            w_trg_len w = w_end_loc w - w_prev_end_loc w /\
            1 <= w_trg_len w <= w_end_loc w - w_begin_loc w /\
            Z.of_nat (length (w_input_ids w)) = w_end_loc w - w_begin_loc w /\
            w_target_ids w =
              repeat ignore_index
                     (length (w_input_ids w) - Z.to_nat (w_trg_len w)) ++
              skipn (length (w_input_ids w) - Z.to_nat (w_trg_len w))
                    (w_input_ids w)) ws /\
  linked 0 ws /\
  StronglySorted Z.lt (0 :: map w_end_loc ws).
Proof.
  intros (Hn & Hm & Hs1 & Hs2) ws. subst ws.
  rewrite run_loop_log.
  pose proof (window_plan_sound tokens max_length stride Hs1 Hs2 Hn) as S.
  pose proof (plan_from_linked tokens max_length (range 0 (seq_len tokens) stride) 0) as L.
  fold (window_plan tokens max_length stride) in L.
  split; [|split].
  - revert S. apply Forall_impl. intros w []. repeat split; try lia. assumption.
  - exact L.
  - apply linked_increasing; [exact L|].
    revert S. apply Forall_impl. intros w []. assumption.
Qed.

Lemma trg_len_positive_witness :
  StronglySorted Z.lt
    (0 :: map w_end_loc (log (fst (run_loop count_score ten_tokens 5 3)))).
Proof.
  apply (trg_len_positive count_score ten_tokens 5 3).
  unfold pre, seq_len. cbn. lia.
Defined.

(** C8 (context): with [stride < max_length], in every window after the first
    the labels overwritten by the ignore value are exactly the first
    [max_length - stride] positions, so each scored position has at least
    that many positions of context before it inside its window; the first
    window has none overwritten. *)
Theorem overlap_context
    (score : list Z -> list Z -> R) (tokens : list Z) (max_length stride : Z)
    (first : window) (later : list window) :
  pre tokens max_length stride ->
  stride < max_length ->
  log (fst (run_loop score tokens max_length stride)) = first :: later ->
  w_target_ids first = w_input_ids first /\
  Forall (fun w =>
            Z.of_nat (length (w_input_ids w)) - w_trg_len w
              = max_length - stride /\
            max_length - stride < Z.of_nat (length (w_input_ids w)) /\
            (forall i : nat,
                (i < Z.to_nat (max_length - stride))%nat ->
                nth i (w_target_ids w) 0 = ignore_index) /\
            (forall i : nat,
                (Z.to_nat (max_length - stride) <= i < length (w_input_ids w))%nat ->
                nth i (w_target_ids w) 0 = nth i (w_input_ids w) 0))
         later.
Proof.
  intros (Hn & Hm & Hs1 & Hs2) Hlt Hlog.
  rewrite run_loop_log in Hlog.
  pose proof (window_plan_tiling tokens max_length stride Hs1 Hs2 Hn) as T.
  pose proof (window_plan_sound tokens max_length stride Hs1 Hs2 Hn) as S.
  rewrite Hlog in T, S.
  inversion S as [|? ? S1 S2]; subst.
  assert (Hov : Forall (fun w => w_prev_end_loc w - w_begin_loc w
                               = max_length - stride) later).
  { inversion T as [|? ? ? Hgo Hrest]; subst; [constructor|].
    apply (tiling_overlap _ _ _ _ _ _ Hrest). lia. }
  split.
  - assert (B : w_begin_loc first = 0 /\ w_prev_end_loc first = 0)
      by (inversion T; subst; cbn; lia).
    destruct S1. rewrite sw_target0.
    replace (length (w_input_ids first) - Z.to_nat (w_trg_len first))%nat
      with 0%nat by lia.
    reflexivity.
  - apply Forall_forall. intros w Hin.
    pose proof (proj1 (Forall_forall _ _) S2 w Hin) as Sw.
    pose proof (proj1 (Forall_forall _ _) Hov w Hin) as Ow. cbn beta in Ow.
    destruct (sound_scored_tail _ _ _ Sw) as (_ & Hctx & Hsc).
    destruct Sw.
    assert (K : (length (w_input_ids w) - Z.to_nat (w_trg_len w))%nat
                = Z.to_nat (max_length - stride)) by lia.
    rewrite K in Hctx, Hsc.
    repeat split; try lia; assumption.
Qed.

Lemma overlap_context_witness :
  Forall (fun w => Z.of_nat (length (w_input_ids w)) - w_trg_len w = 5 - 3)
         (tl (log (fst (run_loop count_score ten_tokens 5 3)))).
Proof.
  destruct (log (fst (run_loop count_score ten_tokens 5 3)))
    as [|first later] eqn:E; [constructor|].
  cbn [tl].
  assert (P : pre ten_tokens 5 3) by (unfold pre, seq_len; cbn; lia).
  assert (L : 3 < 5) by lia.
  destruct (overlap_context count_score ten_tokens 5 3 first later P L E)
    as [_ F].
  revert F. apply Forall_impl. intros w H. apply H.
Defined.



(** The claim C6 as the specification states it fails: with a stride of 5
    over windows of 3 the preconditions do not hold, yet the cell returns a
    perplexity (and tokens 4, 5, 9 and 10 are in no window). *)
Lemma no_validation_counterexample :
  ~ pre ten_tokens 3 5 /\
  map (fun w => (w_begin_loc w, w_end_loc w, w_trg_len w))
      (log (fst (run_loop count_score ten_tokens 3 5)))
    = [(0, 3, 3); (5, 8, 5)] /\
  estimate_perplexity count_score ten_tokens 3 5 = Ok (exp 3).
Proof.
  split; [unfold pre; lia|].
  rewrite run_loop_log, estimate_perplexity_plan. unfold two_phase.
  assert (E : window_plan ten_tokens 3 5 =
              [mk_window 0 0 3 3 [1; 2; 3] [1; 2; 3];
               mk_window 5 3 8 5 [6; 7; 8] [6; 7; 8]])
    by (vm_compute; reflexivity).
  rewrite E. split; [reflexivity|].
  cbn [Z.eqb last w_end_loc].
  unfold reduce, neg_log_likelihood, tensor_sum.
  cbn [map fold_right w_input_ids w_target_ids w_trg_len].
  assert (C1 : count_score [1; 2; 3] [1; 2; 3] = 3%R)
    by (unfold count_score; f_equal).
  assert (C2 : count_score [6; 7; 8] [6; 7; 8] = 3%R)
    by (unfold count_score; f_equal).
  rewrite C1, C2. do 2 f_equal. lra.
Qed.

(** ** Further facts about slices and plans *)

Section FillFacts.

Context {A : Type}.
Implicit Types (l : list A) (v : A).

Lemma norm_index_range (len i : Z) :
  0 <= len -> 0 <= norm_index len i <= len.
Proof.
  intros Hlen. unfold norm_index. destruct (Z.ltb_spec i 0); lia.
Qed.

Lemma fill_prefix_length l (hi : Z) v :
  length (fill_prefix l hi v) = length l.
Proof.
  unfold fill_prefix. apply masked_length.
  pose proof (norm_index_range (Z.of_nat (length l)) hi ltac:(lia)). lia.
Qed.

Lemma fill_prefix_nth l (hi : Z) v d (i : nat) :
  nth i (fill_prefix l hi v) d = nth i l d \/ nth i (fill_prefix l hi v) d = v.
Proof.
  unfold fill_prefix.
  set (k := Z.to_nat (norm_index (Z.of_nat (length l)) hi)).
  destruct (Nat.lt_ge_cases i k) as [Hi|Hi].
  - right. apply masked_nth_context. exact Hi.
  - left. apply masked_nth_scored. exact Hi.
Qed.

Lemma firstn_repeat_app (k : nat) v l :
  firstn k (repeat v k ++ l) = repeat v k.
Proof. induction k as [|k IH]; cbn; [reflexivity|]. rewrite IH. reflexivity. Qed.

Lemma skipn_repeat_app (k : nat) v l :
  skipn k (repeat v k ++ l) = l.
Proof. induction k as [|k IH]; cbn; [reflexivity|exact IH]. Qed.

End FillFacts.

Section PlanFacts.

Variable tokens : list Z.
Variable max_length : Z.

(** What holds of the locals of every iteration holds of every window of a
    plan. *)
Lemma plan_from_Forall (P : window -> Prop) :
  (forall b q : Z, P (locals tokens max_length b q)) ->
  forall (begins : list Z) (p : Z),
    Forall P (plan_from tokens max_length begins p).
Proof.
  intros HP. induction begins as [|b rest IH]; intros p; [constructor|].
  rewrite plan_from_cons. destruct (_ =? _); repeat constructor; auto.
Qed.

Lemma plan_from_length (begins : list Z) (p : Z) :
  (length (plan_from tokens max_length begins p) <= length begins)%nat.
Proof.
  revert p. induction begins as [|b rest IH]; intros p; [reflexivity|].
  rewrite plan_from_cons. destruct (_ =? _); cbn [length].
  - lia.
  - specialize (IH (Z.min (b + max_length) (seq_len tokens))). lia.
Qed.

(** The plan holds a window that ends at [seq_len] exactly when its last
    window does. *)
Lemma plan_from_break (begins : list Z) (p : Z) (d : option Z) :
  d <> Some (seq_len tokens) ->
  existsb (fun w => w_end_loc w =? seq_len tokens)
          (plan_from tokens max_length begins p) = true <->
  last (map (fun w => Some (w_end_loc w)) (plan_from tokens max_length begins p)) d
  = Some (seq_len tokens).
Proof.
  revert p d. induction begins as [|b rest IH]; intros p d Hd.
  - cbn. split; [discriminate|congruence].
  - rewrite plan_from_cons.
    destruct (Z.eqb_spec (Z.min (b + max_length) (seq_len tokens)) (seq_len tokens))
      as [E|E]; cbn [map existsb w_end_loc locals].
    + cbn [last]. rewrite E, Z.eqb_refl. cbn. tauto.
    + rewrite last_cons.
      destruct (Z.eqb_spec (Z.min (b + max_length) (seq_len tokens)) (seq_len tokens));
        [contradiction|].
      cbn [orb]. apply IH. congruence.
Qed.

(** The weights of linked windows telescope. *)
Lemma linked_sum (ws : list window) (p : Z) :
  linked p ws ->
  Forall (fun w => w_trg_len w = w_end_loc w - w_prev_end_loc w) ws ->
  sumZ (map w_trg_len ws) = last (map w_end_loc ws) p - p.
Proof.
  revert p. induction ws as [|w ws IH]; intros p L F.
  - cbn. lia.
  - destruct L as [Lp L]. inversion F as [|? ? Fw Fws]; subst.
    cbn [map]. rewrite last_cons.
    change (sumZ (w_trg_len w :: map w_trg_len ws))
      with (w_trg_len w + sumZ (map w_trg_len ws)).
    rewrite (IH _ L Fws). lia.
Qed.

End PlanFacts.

Section WalkFacts.

Variable tokens : list Z.
Variables max_length stride : Z.
Hypothesis stride_pos : 1 <= stride.

Lemma plan_from_walk (m j : nat) (p : Z) :
  (forall i : nat, (j <= i < j + m)%nat -> Z.of_nat i * stride < seq_len tokens) ->
  seq_len tokens <= Z.of_nat (j + m) * stride ->
  walk tokens max_length stride j p
       (plan_from tokens max_length
                  (map (fun i : nat => Z.of_nat i * stride) (seq j m)) p).
Proof.
  revert j p. induction m as [|m IH]; intros j p Hin Hout.
  - cbn. apply walk_done. rewrite Nat.add_0_r in Hout. exact Hout.
  - change (seq j (S m)) with (j :: seq (S j) m). cbn [map].
    rewrite plan_from_cons.
    assert (Hj : Z.of_nat j * stride < seq_len tokens) by (apply Hin; lia).
    destruct (Z.eqb_spec (Z.min (Z.of_nat j * stride + max_length) (seq_len tokens))
                         (seq_len tokens)) as [E|E].
    + apply walk_stop; lia.
    + apply walk_step; [lia|lia|].
      replace (Z.min (Z.of_nat j * stride + max_length) (seq_len tokens))
        with (Z.of_nat j * stride + max_length) by lia.
      apply IH.
      * intros i Hi. apply Hin. lia.
      * replace (S j + m)%nat with (j + S m)%nat by lia. exact Hout.
Qed.

(** With a positive stride the plan of the cell is a walk from [0]. *)
Lemma window_plan_walk :
  walk tokens max_length stride 0 0 (window_plan tokens max_length stride).
Proof.
  destruct (Z.eq_dec (seq_len tokens) 0) as [Hz|Hz].
  - unfold window_plan. rewrite Hz, range_nothing. cbn.
    apply walk_done. lia.
  - assert (Hn : 1 <= seq_len tokens) by (unfold seq_len in *; lia).
    unfold window_plan. rewrite range_forward by assumption.
    pose proof (Z.div_mod (seq_len tokens - 1) stride ltac:(lia)) as Hdm.
    pose proof (Z.mod_pos_bound (seq_len tokens - 1) stride ltac:(lia)) as Hmod.
    assert (Hq : 0 <= (seq_len tokens - 1) / stride) by (apply Z.div_pos; lia).
    apply plan_from_walk.
    + intros i Hi.
      assert (Hle : Z.of_nat i * stride <= (seq_len tokens - 1) / stride * stride)
        by (apply Z.mul_le_mono_nonneg_r; lia).
      lia.
    + replace (Z.of_nat (0 + S (Z.to_nat ((seq_len tokens - 1) / stride))))
        with ((seq_len tokens - 1) / stride + 1) by lia.
      lia.
Qed.

(** Every window of a walk is the locals of a begin position [k * stride]
    inside the sequence, entered with [prev_end_loc] short of both the end of
    the sequence and the end of the window. *)
Lemma walk_windows (j : nat) (p : Z) (ws : list window) :
  walk tokens max_length stride j p ws ->
  0 <= Z.of_nat j * stride ->
  0 <= p < Z.of_nat j * stride + max_length ->
  (max_length <= stride -> p <= Z.of_nat j * stride) ->
  (ws <> [] -> p < seq_len tokens) ->
  Forall (fun w =>
            exists (k : nat) (q : Z),
              w = locals tokens max_length (Z.of_nat k * stride) q /\
              0 <= Z.of_nat k * stride < seq_len tokens /\
              0 <= q < seq_len tokens /\
              q < Z.of_nat k * stride + max_length /\
              (max_length <= stride -> q <= Z.of_nat k * stride)) ws.
Proof.
  induction 1 as [j p Hdone|j p Hin Hstop|j p ws Hin Hgo Hrest IH];
    intros Hj Hp Hb Hn.
  - constructor.
  - constructor; [|constructor].
    exists j, p. specialize (Hn ltac:(discriminate)). repeat split; auto; lia.
  - constructor.
    + exists j, p. specialize (Hn ltac:(discriminate)). repeat split; auto; lia.
    + apply IH; intros; lia.
Qed.

(** All windows of a walk but the last are [max_length] long. *)
Lemma walk_full (j : nat) (p : Z) (ws : list window) :
  walk tokens max_length stride j p ws ->
  0 <= max_length ->
  0 <= Z.of_nat j * stride ->
  Forall (fun w => Z.of_nat (length (w_input_ids w)) = max_length)
         (removelast ws).
Proof.
  induction 1 as [j p Hdone|j p Hin Hstop|j p ws Hin Hgo Hrest IH];
    intros HM Hj; [constructor|constructor|].
  destruct ws as [|w ws]; [constructor|].
  change (removelast (?a :: w :: ws)) with (a :: removelast (w :: ws)).
  constructor; [|apply IH; lia].
  cbn [w_input_ids locals].
  rewrite slice_length; unfold seq_len in *; lia.
Qed.

(** Past the first window of a walk, [prev_end_loc] is [max_length - stride]
    away from [begin_loc], on either side. *)
Lemma walk_gap (j : nat) (p : Z) (ws : list window) :
  walk tokens max_length stride j p ws ->
  p - Z.of_nat j * stride = max_length - stride ->
  Forall (fun w => w_prev_end_loc w - w_begin_loc w = max_length - stride) ws.
Proof.
  induction 1 as [j p Hdone|j p Hin Hstop|j p ws Hin Hgo Hrest IH]; intros Hp.
  - constructor.
  - constructor; [exact Hp|constructor].
  - constructor; [exact Hp|]. apply IH. lia.
Qed.

(** The locals of an iteration that starts inside the sequence and before
    the end of its window: the input is non-empty and at most [max_length]
    long, and at least one token is weighted. *)
Lemma locals_live (b q : Z) :
  1 <= max_length ->
  0 <= b < seq_len tokens -> q < seq_len tokens -> q < b + max_length ->
  let w := locals tokens max_length b q in
  Z.of_nat (length (w_input_ids w)) = w_end_loc w - w_begin_loc w /\
  1 <= Z.of_nat (length (w_input_ids w)) <= max_length /\
  1 <= w_trg_len w.
Proof.
  intros HM Hb Hq Hm w. subst w.
  cbn [w_input_ids w_end_loc w_begin_loc w_trg_len locals].
  rewrite slice_length by (unfold seq_len in *; lia). lia.
Qed.

End WalkFacts.

Section WalkPlan.

Variable tokens : list Z.
Variables max_length stride : Z.

(** The windows of the cell for a positive stride and window length, inside
    the contract or not. *)
Lemma window_plan_windows :
  1 <= stride -> 1 <= max_length ->
  Forall (fun w =>
            exists (k : nat) (q : Z),
              w = locals tokens max_length (Z.of_nat k * stride) q /\
              0 <= Z.of_nat k * stride < seq_len tokens /\
              0 <= q < seq_len tokens /\
              q < Z.of_nat k * stride + max_length /\
              (max_length <= stride -> q <= Z.of_nat k * stride))
         (window_plan tokens max_length stride).
Proof.
  intros Hs Hm.
  apply (walk_windows tokens max_length stride Hs 0 0);
    [apply window_plan_walk; exact Hs|lia|lia|lia|].
  intros Hne. destruct (Z.le_gt_cases (seq_len tokens) 0) as [Hz|Hz]; [|exact Hz].
  exfalso. apply Hne. apply window_plan_empty. right.
  unfold seq_len in Hz. destruct tokens; [reflexivity|cbn [length] in Hz; lia].
Qed.

End WalkPlan.

Lemma Forall_repeat {A : Type} (v : A) (k : nat) :
  Forall (fun x => x = v) (repeat v k).
Proof. induction k; cbn; constructor; auto. Qed.

Section TilingMore.

Variable tokens : list Z.
Variables max_length stride : Z.

(** The labels of a sound window: ignore values in front, then the tokens
    from [prev_end_loc] to [end_loc]. *)
Lemma sound_labels (w : window) :
  sound_window tokens max_length w ->
  context_labels w
  = repeat ignore_index (Z.to_nat (w_prev_end_loc w - w_begin_loc w)) /\
  scored_labels w
  = firstn (Z.to_nat (w_end_loc w - w_prev_end_loc w))
           (skipn (Z.to_nat (w_prev_end_loc w)) tokens).
Proof.
  intros [].
  assert (Hlt : length (w_target_ids w) = length (w_input_ids w))
    by (rewrite sw_target0; apply masked_length; lia).
  assert (Hk : (length (w_input_ids w) - Z.to_nat (w_trg_len w))%nat
               = Z.to_nat (w_prev_end_loc w - w_begin_loc w)) by lia.
  unfold context_labels, scored_labels. rewrite Hlt, sw_target0, Hk. split.
  - apply firstn_repeat_app.
  - rewrite skipn_repeat_app, sw_input0, skipn_firstn_comm, skipn_skipn.
    f_equal; [lia|f_equal; lia].
Qed.

(** The scored labels of a tiling, one window after the other, are the
    tokens from [p] on. *)
Lemma tiling_partition (j : nat) (p : Z) (ws : list window) :
  tiling tokens max_length stride j p ws ->
  Z.of_nat j * stride <= p -> 0 <= Z.of_nat j * stride -> p < seq_len tokens ->
  p < Z.of_nat j * stride + max_length ->
  1 <= stride <= max_length ->
  concat (map scored_labels ws) = skipn (Z.to_nat p) tokens.
Proof.
  induction 1 as [j p Hstop|j p ws Hgo Hrest IH]; intros H1 H0 H2 H3 Hs;
    cbn [map concat];
    (destruct (sound_labels _ (locals_sound tokens max_length
                                 (Z.of_nat j * stride) p ltac:(lia) H2 H3))
      as [_ ->]);
    cbn [w_end_loc w_prev_end_loc locals].
  - rewrite app_nil_r. apply firstn_all2.
    rewrite length_skipn. unfold seq_len in *. lia.
  - rewrite IH by lia.
    replace (Z.min (Z.of_nat j * stride + max_length) (seq_len tokens))
      with (Z.of_nat j * stride + max_length) by lia.
    replace (Z.to_nat (Z.of_nat j * stride + max_length))
      with (Z.to_nat (Z.of_nat j * stride + max_length - p) + Z.to_nat p)%nat
      by lia.
    rewrite <- skipn_skipn. apply firstn_skipn.
Qed.

(** In a tiling entered one stride after the window before, every window
    weights [stride] tokens, except that the last may weight fewer. *)
Lemma tiling_strides (j : nat) (p : Z) (ws : list window) :
  tiling tokens max_length stride j p ws ->
  1 <= stride ->
  p + stride = Z.of_nat j * stride + max_length -> p < seq_len tokens ->
  Forall (fun w => 1 <= w_trg_len w <= stride) ws /\
  Forall (fun w => w_trg_len w = stride) (removelast ws).
Proof.
  induction 1 as [j p Hstop|j p ws Hgo Hrest IH]; intros Hs Hp Hn.
  - split; [|constructor]. constructor; [cbn; lia|constructor].
  - destruct IH as [IH1 IH2]; [exact Hs|lia|exact Hgo|].
    split; [constructor; [cbn; lia|exact IH1]|].
    destruct ws as [|w ws]; [inversion Hrest|].
    change (removelast (?a :: w :: ws)) with (a :: removelast (w :: ws)).
    constructor; [cbn; lia|exact IH2].
Qed.

(** The number of windows of a tiling is the least that lets the last one
    reach the end of the sequence. *)
Lemma tiling_length (j : nat) (p : Z) (ws : list window) :
  tiling tokens max_length stride j p ws ->
  let k := Z.of_nat (length ws) in
  1 <= k /\
  seq_len tokens <= (Z.of_nat j + k - 1) * stride + max_length /\
  (2 <= k -> (Z.of_nat j + k - 2) * stride + max_length < seq_len tokens).
Proof.
  induction 1 as [j p Hstop|j p ws Hgo Hrest IH]; cbn zeta in *.
  - cbn [length]. repeat split; lia.
  - destruct IH as (Hk & Hup & Hlow). cbn [length].
    rewrite Nat2Z.inj_succ in *.
    repeat split; try lia.
    intros _. destruct (Z.eq_dec (Z.of_nat (length ws)) 1) as [E|E].
    + rewrite E. lia.
    + specialize (Hlow ltac:(lia)). lia.
Qed.

End TilingMore.

(** ** Further properties of the cell *)

(** X2 (labels): whatever the arguments, in every iteration the model input
    is the slice [begin_loc:end_loc] of the tokens, the labels are as long
    as the input, and a label either is the token at its position or is the
    ignore value. *)
Theorem labels_shape
    (score : list Z -> list Z -> R) (tokens : list Z) (max_length stride : Z) :
  Forall (fun w =>
            w_end_loc w = Z.min (w_begin_loc w + max_length) (seq_len tokens) /\
            w_input_ids w = slice tokens (w_begin_loc w) (w_end_loc w) /\
            length (w_target_ids w) = length (w_input_ids w) /\
            forall i : nat,
              nth i (w_target_ids w) 0 = nth i (w_input_ids w) 0 \/
              nth i (w_target_ids w) 0 = ignore_index)
         (log (fst (run_loop score tokens max_length stride))).
Proof.
  rewrite run_loop_log. unfold window_plan.
  apply plan_from_Forall. intros b q. cbn.
  split; [reflexivity|]. split; [reflexivity|].
  split; [apply fill_prefix_length|]. intros i. apply fill_prefix_nth.
Qed.

(** X9 (break): whatever the arguments, no window ends past [seq_len], the
    loop is left through [break] exactly when the final [end_loc] is
    [seq_len], and [end_loc] stays unbound exactly when no iteration ran. *)
Theorem break_iff_reaches_end
    (score : list Z -> list Z -> R) (tokens : list Z) (max_length stride : Z) :
  let st := fst (run_loop score tokens max_length stride) in
  Forall (fun w => w_end_loc w <= seq_len tokens) (log st) /\
  (snd (run_loop score tokens max_length stride) = true
   <-> end_loc st = Some (seq_len tokens)) /\
  (end_loc st = None <-> log st = []).
Proof.
  intros st. subst st. rewrite run_loop_plan. cbn [fst snd log end_loc].
  split; [|split].
  - unfold window_plan. apply plan_from_Forall. intros b q. cbn. lia.
  - unfold window_plan. apply plan_from_break. discriminate.
  - destruct (window_plan tokens max_length stride) as [|w ws].
    + cbn. tauto.
    + cbn [map]. rewrite last_cons, (last_map (fun w => Some (w_end_loc w))).
      split; discriminate.
Qed.


(** X3 (model input): for any positive stride and window length, inside the
    contract or not, every iteration starts at a multiple of the stride
    inside the sequence, hands the model between 1 and [max_length] tokens
    and weights at least one; every window but the last is exactly
    [max_length] long. *)
Theorem windows_fit_model
    (score : list Z -> list Z -> R) (tokens : list Z) (max_length stride : Z) :
  1 <= stride -> 1 <= max_length ->
  let ws := log (fst (run_loop score tokens max_length stride)) in
  Forall (fun w =>
            (exists k : nat, w_begin_loc w = Z.of_nat k * stride) /\
            0 <= w_begin_loc w < seq_len tokens /\
            1 <= Z.of_nat (length (w_input_ids w)) <= max_length /\
            1 <= w_trg_len w) ws /\
  Forall (fun w => Z.of_nat (length (w_input_ids w)) = max_length)
         (removelast ws).
Proof.
  intros Hs Hm ws. subst ws. rewrite run_loop_log. split.
  - pose proof (window_plan_windows tokens max_length stride Hs Hm) as W.
    revert W. apply Forall_impl.
    intros w (k & q & -> & Hk & Hq & Hqm & _).
    destruct (locals_live tokens max_length (Z.of_nat k * stride) q)
      as (_ & Hlen & Htrg); try lia.
    split; [exists k; reflexivity|]. split; [exact Hk|]. split; assumption.
  - eapply walk_full; [| apply window_plan_walk; exact Hs | |]; lia.
Qed.

Lemma windows_fit_model_witness :
  Forall (fun w => Z.of_nat (length (w_input_ids w)) = 3)
         (removelast (log (fst (run_loop count_score ten_tokens 3 5)))).
Proof.
  apply (windows_fit_model count_score ten_tokens 3 5); lia.
Defined.

(** X8 (stride beyond the window): with [1 <= max_length < stride] no label
    is overwritten in any window, every window after the first is weighted
    with [stride - max_length] more tokens than it holds, and a position [i]
    with [max_length <= i mod stride] is in no window. *)
Theorem stride_beyond_window
    (score : list Z -> list Z -> R) (tokens : list Z) (max_length stride : Z) :
  1 <= max_length -> max_length < stride ->
  let ws := log (fst (run_loop score tokens max_length stride)) in
  Forall (fun w => w_target_ids w = w_input_ids w) ws /\
  Forall (fun w => w_trg_len w
                   = Z.of_nat (length (w_input_ids w)) + (stride - max_length))
         (tl ws) /\
  forall i : Z,
    max_length <= i mod stride ->
    Forall (fun w => ~ (w_begin_loc w <= i < w_end_loc w)) ws.
Proof.
  intros Hm Hlt ws. subst ws. rewrite run_loop_log.
  assert (Hs : 1 <= stride) by lia.
  pose proof (window_plan_windows tokens max_length stride Hs Hm) as W.
  pose proof (window_plan_walk tokens max_length stride Hs) as K.
  split; [|split].
  - revert W. apply Forall_impl.
    intros w (k & q & -> & Hk & Hq & Hqm & Hbehind).
    destruct (locals_live tokens max_length (Z.of_nat k * stride) q)
      as (Hlen & _ & Htrg); try lia.
    cbn [w_target_ids w_input_ids w_end_loc w_begin_loc w_trg_len locals] in *.
    apply fill_prefix_none; lia.
  - destruct (window_plan tokens max_length stride) as [|first later];
      [constructor|]. cbn [tl].
    inversion W as [|? ? _ Wl]; subst.
    assert (G : Forall (fun w => w_prev_end_loc w - w_begin_loc w
                                 = max_length - stride) later).
    { inversion K as [| |? ? ? Hin Hgo Hrest]; subst; [constructor|].
      eapply walk_gap; [exact Hrest|lia]. }
    apply Forall_forall. intros w Hin.
    destruct (proj1 (Forall_forall _ _) Wl w Hin)
      as (k & q & -> & Hk & Hq & Hqm & _).
    pose proof (proj1 (Forall_forall _ _) G _ Hin) as Gw. cbn in Gw.
    destruct (locals_live tokens max_length (Z.of_nat k * stride) q)
      as (Hlen & _ & _); try lia.
    cbn [w_input_ids w_end_loc w_begin_loc w_trg_len locals] in *. lia.
  - intros i Hi. revert W. apply Forall_impl.
    intros w (k & q & -> & Hk & Hq & Hqm & _) Hin.
    cbn [w_end_loc w_begin_loc locals] in Hin.
    assert (Hr : i - Z.of_nat k * stride = i mod stride).
    { apply (Z.mod_unique_pos i stride (Z.of_nat k)); lia. }
    lia.
Qed.

Lemma stride_beyond_window_witness :
  Forall (fun w => ~ (w_begin_loc w <= 4 < w_end_loc w))
         (log (fst (run_loop count_score ten_tokens 3 5))).
Proof.
  assert (Hm : 1 <= 3) by lia.
  assert (Hlt : 3 < 5) by lia.
  destruct (stride_beyond_window count_score ten_tokens 3 5 Hm Hlt)
    as (_ & _ & H).
  apply (H 4). vm_compute. discriminate.
Defined.

(** X4 (partition): under the preconditions the labels left for scoring,
    window after window, are the token sequence itself: every token is scored
    in exactly one window, and every label in front of the scored ones is
    the ignore value. *)
Theorem scored_labels_partition
    (score : list Z -> list Z -> R) (tokens : list Z) (max_length stride : Z) :
  pre tokens max_length stride ->
  let ws := log (fst (run_loop score tokens max_length stride)) in
  concat (map scored_labels ws) = tokens /\
  Forall (fun w =>
            Forall (fun t => t = ignore_index) (context_labels w) /\
            Z.of_nat (length (scored_labels w)) = w_trg_len w) ws.
Proof.
  intros (Hn & Hm & Hs1 & Hs2) ws. subst ws. rewrite run_loop_log.
  pose proof (window_plan_tiling tokens max_length stride Hs1 Hs2 Hn) as T.
  pose proof (window_plan_sound tokens max_length stride Hs1 Hs2 Hn) as S.
  split.
  - rewrite (tiling_partition tokens max_length stride 0 0 _ T) by lia.
    reflexivity.
  - revert S. apply Forall_impl. intros w Hw.
    destruct (sound_labels tokens max_length w Hw) as [Hc Hsc].
    rewrite Hc, Hsc. split; [apply Forall_repeat|].
    destruct Hw. rewrite length_firstn, length_skipn.
    unfold seq_len in *. lia.
Qed.

Lemma scored_labels_partition_witness :
  concat (map scored_labels (log (fst (run_loop count_score ten_tokens 5 3))))
  = ten_tokens.
Proof.
  apply (scored_labels_partition count_score ten_tokens 5 3).
  unfold pre, seq_len. cbn. lia.
Defined.

(** X5 (weights): under the preconditions the first window weights
    [min(max_length, seq_len)] tokens, every later window weights between 1
    and [stride], and every later window but the last weights exactly
    [stride]: [trg_len] differs from the stride on the last loop only. *)
Theorem trg_len_is_stride
    (score : list Z -> list Z -> R) (tokens : list Z) (max_length stride : Z) :
  pre tokens max_length stride ->
  let ws := log (fst (run_loop score tokens max_length stride)) in
  map w_trg_len (firstn 1 ws) = [Z.min max_length (seq_len tokens)] /\
  Forall (fun w => 1 <= w_trg_len w <= stride) (tl ws) /\
  Forall (fun w => w_trg_len w = stride) (removelast (tl ws)).
Proof.
  intros (Hn & Hm & Hs1 & Hs2) ws. subst ws. rewrite run_loop_log.
  pose proof (window_plan_tiling tokens max_length stride Hs1 Hs2 Hn) as T.
  inversion T as [? ? Hstop E|? ? later Hgo Hrest E]; cbn [firstn map tl].
  - split; [cbn; f_equal; lia|]. split; constructor.
  - split; [cbn; f_equal; lia|].
    apply (tiling_strides tokens max_length stride 1 _ later Hrest); lia.
Qed.

Lemma trg_len_is_stride_witness :
  Forall (fun w => w_trg_len w = 3)
         (removelast (tl (log (fst (run_loop count_score ten_tokens 5 3))))).
Proof.
  apply (trg_len_is_stride count_score ten_tokens 5 3).
  unfold pre, seq_len. cbn. lia.
Defined.

(** X6 (number of passes): under the preconditions the loop calls the model
    once when the sequence fits in a window and
    [ceil((seq_len - max_length) / stride) + 1] times otherwise, which is
    never more than the length of the range it iterates over. *)
Theorem window_count
    (score : list Z -> list Z -> R) (tokens : list Z) (max_length stride : Z) :
  pre tokens max_length stride ->
  let ws := log (fst (run_loop score tokens max_length stride)) in
  Z.of_nat (length ws)
  = (if seq_len tokens <=? max_length then 1
     else (seq_len tokens - max_length + stride - 1) / stride + 1) /\
  (length ws <= length (range 0 (seq_len tokens) stride))%nat.
Proof.
  intros (Hn & Hm & Hs1 & Hs2) ws. subst ws. rewrite run_loop_log.
  split; [|apply plan_from_length].
  pose proof (window_plan_tiling tokens max_length stride Hs1 Hs2 Hn) as T.
  destruct (tiling_length tokens max_length stride 0 0 _ T) as (Hk & Hup & Hlow).
  set (k := Z.of_nat (length (window_plan tokens max_length stride))) in *.
  cbn [Z.of_nat Z.add] in Hup, Hlow.
  destruct (Z.leb_spec (seq_len tokens) max_length) as [Hfit|Hlong].
  - destruct (Z.eq_dec k 1) as [E|E]; [exact E|].
    specialize (Hlow ltac:(lia)). nia.
  - assert (Hk2 : 2 <= k) by nia.
    specialize (Hlow Hk2).
    assert (Hq : k - 1 = (seq_len tokens - max_length + stride - 1) / stride).
    { apply (Z.div_unique _ _ _
               (seq_len tokens - max_length + stride - 1 - stride * (k - 1)));
        [left|]; lia. }
    lia.
Qed.

Lemma window_count_witness :
  Z.of_nat (length (log (fst (run_loop count_score ten_tokens 5 3))))
  = (10 - 5 + 3 - 1) / 3 + 1.
Proof.
  apply (window_count count_score ten_tokens 5 3).
  unfold pre, seq_len. cbn. lia.
Defined.

(** ** The machine reading and the window plan *)

Lemma last_Forall {A : Type} (P : A -> Prop) (l : list A) (d : A) :
  Forall P l -> l <> [] -> P (last l d).
Proof.
  induction 1 as [|a l Ha Hl IH]; intros Hne; [congruence|].
  rewrite last_cons. destruct l as [|b l]; [exact Ha|].
  rewrite (last_cons b a l), <- (last_cons b d l). apply IH. discriminate.
Qed.

Lemma fits_int64_spec (z : Z) :
  fits_int64 z = true <->
  - 9223372036854775808 <= z < 9223372036854775808.
Proof.
  unfold fits_int64. change (2 ^ 63) with 9223372036854775808.
  rewrite andb_true_iff, Z.leb_le, Z.ltb_lt. reflexivity.
Qed.

Section MachineFacts.

Variable ops : tensor_ops.
Variable score : list Z -> list Z -> scalar ops.
Variable tokens : list Z.
Variables max_length stride : Z.

(** As long as every [trg_len] fits, the machine loop leaves behind the
    windows of the plan and their contributions; otherwise it raises. *)
Lemma m_for_loop_plan (begins : list Z) (st : mstate ops) :
  m_for_loop ops score tokens max_length begins st =
  let ws := plan_from tokens max_length begins (m_prev_end_loc st) in
  if forallb (fun w => fits_int64 (w_trg_len w)) ws then
    Ok (mk_mstate (m_nlls st ++ map (m_neg_log_likelihood ops score) ws)
                  (last (map w_end_loc ws) (m_prev_end_loc st))
                  (last (map (fun w => Some (w_end_loc w)) ws) (m_end_loc st))
                  (m_log st ++ ws),
        existsb (fun w => w_end_loc w =? seq_len tokens) ws)
  else Raise OverflowError.
Proof.
  revert st. induction begins as [|b rest IH]; intros st; cbn zeta.
  - cbn. rewrite !app_nil_r. destruct st; reflexivity.
  - cbn [m_for_loop]. rewrite plan_from_cons. unfold m_loop_body.
    change (w_end_loc (locals tokens max_length b (m_prev_end_loc st)))
      with (Z.min (b + max_length) (seq_len tokens)).
    destruct (fits_int64 (w_trg_len (locals tokens max_length b (m_prev_end_loc st))))
      eqn:F;
      destruct (Z.min (b + max_length) (seq_len tokens) =? seq_len tokens) eqn:E;
      cbn [forallb map existsb]; rewrite ?F; cbn [andb]; try reflexivity.
    + cbn [last w_end_loc locals]. rewrite E. reflexivity.
    + rewrite IH. cbn [m_nlls m_prev_end_loc m_end_loc m_log].
      destruct (forallb _ _); [|reflexivity].
      cbn [w_end_loc locals]. rewrite E, !last_cons, <- !app_assoc.
      reflexivity.
Qed.

Lemma machine_run_plan :
  machine_run ops score tokens max_length stride =
  let ws := window_plan tokens max_length stride in
  if forallb (fun w => fits_int64 (w_trg_len w)) ws then
    Ok (mk_mstate (map (m_neg_log_likelihood ops score) ws)
                  (last (map w_end_loc ws) 0)
                  (last (map (fun w => Some (w_end_loc w)) ws) None)
                  ws,
        existsb (fun w => w_end_loc w =? seq_len tokens) ws)
  else Raise OverflowError.
Proof. unfold machine_run. rewrite m_for_loop_plan. reflexivity. Qed.

Lemma machine_perplexity_plan :
  machine_perplexity ops score tokens max_length stride =
  machine_two_phase ops score tokens max_length stride.
Proof.
  unfold machine_perplexity, machine_two_phase.
  destruct (stride =? 0); [reflexivity|].
  rewrite machine_run_plan. cbn zeta.
  destruct (forallb _ _); [|reflexivity].
  cbn [m_nlls m_end_loc].
  destruct (window_plan tokens max_length stride) as [|w ws]; [reflexivity|].
  cbn [map]. rewrite last_cons, (last_map (fun w => Some (w_end_loc w))).
  reflexivity.
Qed.

(** With a positive stride and window length over a sequence a tensor can
    hold, every integer that meets a tensor fits. *)
Lemma window_plan_fits :
  1 <= stride -> 1 <= max_length -> seq_len tokens < 2 ^ 63 ->
  Forall (fun w => fits_int64 (w_trg_len w) = true /\
                   fits_int64 (w_end_loc w) = true)
         (window_plan tokens max_length stride).
Proof.
  intros Hs Hm Hn. change (2 ^ 63) with 9223372036854775808 in Hn.
  pose proof (window_plan_windows tokens max_length stride Hs Hm) as W.
  revert W. apply Forall_impl.
  intros w (k & q & -> & Hk & Hq & Hqm & _).
  cbn [w_trg_len w_end_loc locals].
  split; apply fits_int64_spec; lia.
Qed.

End MachineFacts.

(** The two readings agree unless an integer is too large for a tensor
    operation. *)
Lemma machine_perplexity_exact
    (score : list Z -> list Z -> R) (tokens : list Z) (max_length stride : Z) :
  machine_perplexity real_ops score tokens max_length stride
  = estimate_perplexity score tokens max_length stride \/
  machine_perplexity real_ops score tokens max_length stride
  = Raise OverflowError.
Proof.
  rewrite machine_perplexity_plan, estimate_perplexity_plan.
  unfold machine_two_phase, two_phase.
  destruct (stride =? 0); [left; reflexivity|]. cbn zeta.
  destruct (forallb _ _); [|right; reflexivity].
  destruct (window_plan tokens max_length stride) as [|w ws];
    [left; reflexivity|].
  destruct (fits_int64 _); [left; reflexivity|right; reflexivity].
Qed.

(** ** The value and the exceptions of the cell *)

(** C6 (no validation), as the code has it: the cell checks nothing and has
    no error of its own.  It yields no value when the stride is zero
    ([range] raises [ValueError]) and when the stride is negative or the
    sequence empty ([nlls] stays empty and [torch.stack] raises).  With a
    positive stride and window length over a non-empty sequence, the stride
    larger than the window or not, it returns the reduction of the windows
    it executed. *)
Theorem no_validation
    (ops : tensor_ops) (score : list Z -> list Z -> scalar ops)
    (tokens : list Z) (max_length stride : Z) :
  (stride = 0 ->
   machine_perplexity ops score tokens max_length stride = Raise ValueError) /\
  (stride < 0 \/ tokens = [] -> stride <> 0 ->
   machine_perplexity ops score tokens max_length stride = Raise RuntimeError) /\
  (1 <= stride -> 1 <= max_length -> tokens <> [] ->
   seq_len tokens < 2 ^ 63 ->
   exists (st : mstate ops) (b : bool) (w : window) (ws : list window),
     machine_run ops score tokens max_length stride = Ok (st, b) /\
     m_log st = w :: ws /\
     machine_perplexity ops score tokens max_length stride
       = Ok (t_exp ops (t_div ops (t_sum ops (m_nlls st))
                                  (w_end_loc (last ws w))))).
Proof.
  split; [|split].
  - intros ->. reflexivity.
  - intros H Hs. rewrite machine_perplexity_plan. unfold machine_two_phase.
    destruct (Z.eqb_spec stride 0); [contradiction|].
    rewrite window_plan_empty by (destruct H; [left; lia|right; assumption]).
    reflexivity.
  - intros Hs Hm Ht Hn.
    pose proof (window_plan_fits tokens max_length stride Hs Hm Hn) as F.
    destruct (window_plan_first tokens max_length stride Hs Ht) as (w & ws & E).
    rewrite machine_perplexity_plan, machine_run_plan. unfold machine_two_phase.
    cbn zeta. destruct (Z.eqb_spec stride 0); [lia|].
    assert (Fa : forallb (fun w => fits_int64 (w_trg_len w))
                         (window_plan tokens max_length stride) = true).
    { apply forallb_forall. intros x Hx.
      exact (proj1 (proj1 (Forall_forall _ _) F x Hx)). }
    rewrite Fa. rewrite E in F |- *.
    assert (Fe : fits_int64 (w_end_loc (last ws w)) = true).
    { rewrite <- (last_cons w w ws).
      apply (last_Forall (fun x => fits_int64 (w_end_loc x) = true));
        [|discriminate].
      revert F. apply Forall_impl. intros x Hx. apply Hx. }
    rewrite Fe. eexists _, _, w, ws. repeat split.
Qed.

Lemma no_validation_witness :
  machine_perplexity real_ops count_score ten_tokens 5 0 = Raise ValueError /\
  machine_perplexity real_ops count_score ten_tokens 5 (-1) = Raise RuntimeError /\
  machine_perplexity real_ops count_score [] 5 3 = Raise RuntimeError /\
  (exists (st : mstate real_ops) (b : bool) (w : window) (ws : list window),
      machine_run real_ops count_score ten_tokens 3 5 = Ok (st, b) /\
      m_log st = w :: ws /\
      machine_perplexity real_ops count_score ten_tokens 3 5
        = Ok (exp (tensor_sum (m_nlls st) / IZR (w_end_loc (last ws w))))).
Proof.
  split; [|split; [|split]].
  - apply (no_validation real_ops count_score ten_tokens 5 0). reflexivity.
  - apply (no_validation real_ops count_score ten_tokens 5 (-1)); [left|]; lia.
  - apply (no_validation real_ops count_score [] 5 3);
      [right; reflexivity|lia].
  - apply (no_validation real_ops count_score ten_tokens 3 5);
      [lia|lia|discriminate|unfold seq_len; cbn; lia].
Defined.

(** C5 (single window), as the code has it: when the sequence fits in one
    window the loop executes one iteration, over the whole sequence, with
    [trg_len = len(tokens)] and nothing overwritten in the labels, and
    leaves through [break]; the cell returns the exponential of the loss
    multiplied by [seq_len], summed alone and divided by [seq_len].  That is
    [exp (score tokens tokens)] in an arithmetic where the division undoes
    the multiplication. *)
Theorem single_window
    (ops : tensor_ops) (score : list Z -> list Z -> scalar ops)
    (tokens : list Z) (max_length stride : Z) :
  pre tokens max_length stride ->
  seq_len tokens <= max_length ->
  seq_len tokens < 2 ^ 63 ->
  (exists st : mstate ops,
      machine_run ops score tokens max_length stride = Ok (st, true) /\
      m_log st
      = [mk_window 0 0 (seq_len tokens) (seq_len tokens) tokens tokens]) /\
  machine_perplexity ops score tokens max_length stride
  = Ok (t_exp ops
          (t_div ops
             (t_sum ops [t_mul ops (score tokens tokens) (seq_len tokens)])
             (seq_len tokens))) /\
  ((forall (x : scalar ops) (k : Z),
       1 <= k -> t_div ops (t_sum ops [t_mul ops x k]) k = x) ->
   machine_perplexity ops score tokens max_length stride
   = Ok (t_exp ops (score tokens tokens))).
Proof.
  intros (Hn & Hm & Hs1 & Hs2) Hfit Hbig.
  pose proof (window_plan_tiling tokens max_length stride Hs1 Hs2 Hn) as T.
  assert (P : window_plan tokens max_length stride =
              [mk_window 0 0 (seq_len tokens) (seq_len tokens) tokens tokens]).
  { inversion T as [? ? Hstop E|? ? ? Hgo]; [|lia].
    cbn [Z.of_nat Z.mul]. rewrite locals_whole by lia. reflexivity. }
  assert (F : fits_int64 (seq_len tokens) = true)
    by (apply fits_int64_spec; change (2 ^ 63) with 9223372036854775808 in Hbig;
        lia).
  assert (V : machine_perplexity ops score tokens max_length stride
              = Ok (t_exp ops
                      (t_div ops
                         (t_sum ops [t_mul ops (score tokens tokens)
                                               (seq_len tokens)])
                         (seq_len tokens)))).
  { rewrite machine_perplexity_plan. unfold machine_two_phase.
    destruct (Z.eqb_spec stride 0); [lia|].
    rewrite P. cbn [forallb w_trg_len last w_end_loc]. rewrite F.
    reflexivity. }
  split; [|split].
  - rewrite machine_run_plan, P. cbn zeta. cbn [forallb w_trg_len].
    rewrite F. cbn [andb map last existsb w_end_loc].
    rewrite Z.eqb_refl. eexists. split; reflexivity.
  - exact V.
  - intros Hcancel. rewrite V, Hcancel by exact Hn. reflexivity.
Qed.

Lemma single_window_witness :
  machine_perplexity real_ops count_score [7; 8; 9] 5 3
  = Ok (exp (count_score [7; 8; 9] [7; 8; 9])).
Proof.
  apply (single_window real_ops count_score [7; 8; 9] 5 3).
  - unfold pre, seq_len. cbn. lia.
  - unfold seq_len. cbn. lia.
  - unfold seq_len. cbn. lia.
  - intros x k Hk.
    change (@eq R (tensor_sum [(x * IZR k)%R] / IZR k)%R x).
    unfold tensor_sum. cbn [fold_right].
    field. apply not_0_IZR. lia.
Defined.

(** The claim C5 as the specification states it fails in float32: over the
    three tokens 7, 8, 9 with a loss of 11388698 * 2^-20 the cell hands
    [exp] the next float32 up, 11388699 * 2^-20, and not the loss. *)
Lemma single_window_counterexample :
  pre [7; 8; 9] 5 3 /\
  seq_len [7; 8; 9] <= 5 /\
  uneven_score [7; 8; 9] [7; 8; 9] = S754_finite false 11388698 (-20) /\
  (forall texp : spec_float -> spec_float,
      machine_perplexity (float32_ops texp) uneven_score [7; 8; 9] 5 3
      = Ok (texp (S754_finite false 11388699 (-20)))) /\
  (forall texp : spec_float -> spec_float,
      texp (S754_finite false 11388699 (-20))
      <> texp (S754_finite false 11388698 (-20)) ->
      machine_perplexity (float32_ops texp) uneven_score [7; 8; 9] 5 3
      <> Ok (texp (uneven_score [7; 8; 9] [7; 8; 9]))).
Proof.
  assert (V : forall texp : spec_float -> spec_float,
             machine_perplexity (float32_ops texp) uneven_score [7; 8; 9] 5 3
             = Ok (texp (S754_finite false 11388699 (-20))))
    by (intros texp; vm_compute; reflexivity).
  split; [unfold pre, seq_len; cbn; lia|].
  split; [unfold seq_len; cbn; lia|].
  split; [reflexivity|].
  split; [exact V|].
  intros texp Hsep. rewrite V. intros E. apply Hsep.
  injection E as E. exact E.
Qed.

(** C9 (two phases), as the code has it: for all arguments the cell returns
    or raises what planning the windows first and reducing their
    contributions afterwards does, and a loop that is not interrupted leaves
    exactly the windows of the plan and their contributions.  The value does
    not depend on the order of the contributions in an arithmetic whose sum
    does not. *)
Theorem two_phase_refinement
    (ops : tensor_ops) (score : list Z -> list Z -> scalar ops)
    (tokens : list Z) (max_length stride : Z) :
  let plan := window_plan tokens max_length stride in
  machine_perplexity ops score tokens max_length stride
  = machine_two_phase ops score tokens max_length stride /\
  (forall (st : mstate ops) (b : bool),
      machine_run ops score tokens max_length stride = Ok (st, b) ->
      m_log st = plan /\
      m_nlls st
      = map (fun w => t_mul ops (score (w_input_ids w) (w_target_ids w))
                                (w_trg_len w)) plan) /\
  ((forall xs ys : list (scalar ops),
       Permutation xs ys -> t_sum ops xs = t_sum ops ys) ->
   forall (ws : list window) (e : Z),
     Permutation plan ws ->
     machine_reduce ops score ws e = machine_reduce ops score plan e).
Proof.
  intros plan. subst plan. split; [apply machine_perplexity_plan|]. split.
  - intros st b. rewrite machine_run_plan. cbn zeta.
    destruct (forallb _ _); [|discriminate].
    intros E. injection E as <- _. split; reflexivity.
  - intros Hsum ws e Hperm. unfold machine_reduce. do 2 f_equal.
    apply Hsum. apply Permutation_sym. apply Permutation_map. exact Hperm.
Qed.

Lemma two_phase_refinement_witness :
  machine_reduce real_ops count_score (rev (window_plan ten_tokens 5 3)) 10
  = machine_reduce real_ops count_score (window_plan ten_tokens 5 3) 10.
Proof.
  apply (two_phase_refinement real_ops count_score ten_tokens 5 3).
  - intros xs ys. apply tensor_sum_perm.
  - apply Permutation_rev.
Defined.

(** The claim C9 as the specification states it fails in float32: in the
    scenario, with losses 16, 2^-20 and 1.5 * 2^-20 on the three windows,
    the contributions 80, 3 * 2^-20 and 3 * 2^-20 sum to 80 in the order of
    the loop and to 80 + 2^-17 in the reverse order, and [exp] is handed 8
    in one case and 8 + 2^-20 in the other. *)
Lemma summation_order_counterexample :
  Permutation (window_plan ten_tokens 5 3) (rev (window_plan ten_tokens 5 3)) /\
  F32.sum (map (m_neg_log_likelihood (float32_ops (fun x => x)) steep_score)
               (window_plan ten_tokens 5 3))
  = S754_finite false 10485760 (-17) /\
  F32.sum (map (m_neg_log_likelihood (float32_ops (fun x => x)) steep_score)
               (rev (window_plan ten_tokens 5 3)))
  = S754_finite false 10485761 (-17) /\
  (forall texp : spec_float -> spec_float,
      machine_perplexity (float32_ops texp) steep_score ten_tokens 5 3
      = Ok (texp (S754_finite false 8388608 (-20)))) /\
  (forall texp : spec_float -> spec_float,
      machine_reduce (float32_ops texp) steep_score
                     (rev (window_plan ten_tokens 5 3)) 10
      = texp (S754_finite false 8388609 (-20))) /\
  (forall texp : spec_float -> spec_float,
      texp (S754_finite false 8388609 (-20))
      <> texp (S754_finite false 8388608 (-20)) ->
      Ok (machine_reduce (float32_ops texp) steep_score
                         (rev (window_plan ten_tokens 5 3)) 10)
      <> machine_perplexity (float32_ops texp) steep_score ten_tokens 5 3).
Proof.
  assert (V : forall texp : spec_float -> spec_float,
             machine_perplexity (float32_ops texp) steep_score ten_tokens 5 3
             = Ok (texp (S754_finite false 8388608 (-20))))
    by (intros texp; vm_compute; reflexivity).
  assert (W : forall texp : spec_float -> spec_float,
             machine_reduce (float32_ops texp) steep_score
                            (rev (window_plan ten_tokens 5 3)) 10
             = texp (S754_finite false 8388609 (-20)))
    by (intros texp; vm_compute; reflexivity).
  split; [apply Permutation_rev|].
  split; [vm_compute; reflexivity|].
  split; [vm_compute; reflexivity|].
  split; [exact V|]. split; [exact W|].
  intros texp Hsep. rewrite V, W. intros E. apply Hsep.
  injection E as E. exact E.
Qed.

(** X1 (weights and divisor): whatever the arguments and the arithmetic,
    when the cell returns, the values of [trg_len] over the iterations
    executed add up to the [end_loc] it divides by; [ValueError] and
    [RuntimeError] are raised only when no iteration was executed, and
    [OverflowError] only by an iteration or by the final division. *)
Theorem weights_sum_to_divisor
    (ops : tensor_ops) (score : list Z -> list Z -> scalar ops)
    (tokens : list Z) (max_length stride : Z) :
  match machine_perplexity ops score tokens max_length stride with
  | Ok v =>
      exists (st : mstate ops) (b : bool),
        machine_run ops score tokens max_length stride = Ok (st, b) /\
        sumZ (map w_trg_len (m_log st)) = m_prev_end_loc st /\
        m_end_loc st = Some (sumZ (map w_trg_len (m_log st))) /\
        v = t_exp ops (t_div ops (t_sum ops (m_nlls st))
                                 (sumZ (map w_trg_len (m_log st))))
  | Raise OverflowError =>
      machine_run ops score tokens max_length stride = Raise OverflowError \/
      exists (st : mstate ops) (b : bool) (e : Z),
        machine_run ops score tokens max_length stride = Ok (st, b) /\
        m_end_loc st = Some e /\ fits_int64 e = false
  | Raise _ =>
      machine_run ops score tokens max_length stride = Ok (m_init_state ops, false)
  end.
Proof.
  assert (Hsum : sumZ (map w_trg_len (window_plan tokens max_length stride))
                 = last (map w_end_loc (window_plan tokens max_length stride)) 0).
  { unfold window_plan. rewrite (linked_sum _ 0).
    - lia.
    - apply plan_from_linked.
    - apply plan_from_Forall. intros b q. reflexivity. }
  unfold machine_perplexity. rewrite machine_run_plan. cbn zeta.
  destruct (Z.eqb_spec stride 0) as [Hz|Hz].
  - rewrite window_plan_empty by (left; lia). reflexivity.
  - destruct (forallb _ _); [|left; reflexivity].
    cbn [m_nlls m_end_loc].
    destruct (window_plan tokens max_length stride) as [|w ws] eqn:E;
      [reflexivity|].
    cbn [map] in *. rewrite last_cons in Hsum.
    rewrite last_cons, (last_map (fun w => Some (w_end_loc w))).
    rewrite last_map in Hsum.
    destruct (fits_int64 (w_end_loc (last ws w))) eqn:F.
    + eexists _, _. split; [reflexivity|].
      cbn [m_log m_prev_end_loc m_end_loc m_nlls map].
      rewrite last_cons, last_map, Hsum. repeat split.
    + right. eexists _, _, _. split; [reflexivity|].
      cbn [m_end_loc map].
      split; [reflexivity|exact F].
Qed.
